(** * linked_list.py: the singly linked list and its printing routine

    A shallow embedding of [src/linked_list.py].  Python objects live in a
    heap addressed by object identity; [Node] objects reference each other
    through [next_node], so a chain may share nodes or loop back on itself.
    The [while] loop of [print_LL] is therefore embedded with a fuel
    argument that counts executions of its body. *)

From Stdlib Require Import ZArith String DecimalString.
From stdpp Require Import gmap strings list.

(** ** Python values *)

(** The values a node's [data] field holds in this development.  The list
    never inspects [data]; it only applies [str] to it. *)
Inductive PyVal : Type :=
  | PyNone
  | PyBool (b : bool)
  | PyInt (z : Z)
  | PyStr (s : string).

(** Python's [str] built-in on those values. *)
Definition py_str (v : PyVal) : string :=
  match v with
  | PyNone => "None"
  | PyBool true => "True"
  | PyBool false => "False"
  | PyInt z => NilZero.string_of_int (Z.to_int z)
  | PyStr s => s
  end.

(** ** Objects *)

(** Object identity. *)
Abbreviation addr := nat.

(** [class Node]: [next_node] is [None] or a reference to a [Node]. *)
Record Node : Type := mkNode {
  data : PyVal;
  next_node : option addr
}.

(** [class LinkedList]. *)
Record LinkedList : Type := mkLinkedList {
  head : option addr;
  last_node : option addr
}.

(** [Node.__init__(self, data=None, next_node=None)].  An argument the
    caller leaves out is [None] here and takes the default of the
    signature. *)
Definition Node_init (data : option PyVal) (next_node : option (option addr))
  : Node :=
  {| data := default PyNone data;
     next_node := default None next_node |}.

(** [LinkedList.__init__(self)]. *)
Definition LinkedList_init : LinkedList :=
  {| head := None;
     last_node := None |}.

(** ** Program state *)

(** The node heap, the list object bound to the module variable [ll], and
    the standard output.  [stdout] records one entry per call of [print]:
    the text of the line, without the line terminator [print] writes after
    it. *)
Record State : Type := mkState {
  heap : gmap addr Node;
  ll : LinkedList;
  stdout : list string
}.

(** How a call ends.  [OutOfFuel]: the loop was still running when the fuel
    ran out.  [Fault]: a reference to an address the heap does not hold,
    which no Python program can build; the model reports it and never
    repairs it. *)
Inductive outcome (A : Type) : Type :=
  | Done (a : A)
  | OutOfFuel
  | Fault.
Arguments Done {A} a.
Arguments OutOfFuel {A}.
Arguments Fault {A}.

#[export] Instance outcome_ret : MRet outcome := λ A a, Done a.
#[export] Instance outcome_bind : MBind outcome := λ A B f m,
  match m with
  | Done a => f a
  | OutOfFuel => OutOfFuel
  | Fault => Fault
  end.

(** [print(v)]: one line holding [str(v)]. *)
Definition print (v : PyVal) (st : State) : State :=
  {| heap := heap st; ll := ll st; stdout := stdout st ++ [py_str v] |}.

(** ** print_LL *)

(** The loop of lines 19-21,
<<
        while node:
            ll_string += f"{str(node.data)} => "
            node = node.next_node
>>
    on the local variables [ll_string] and [node].  A [Node] object is
    truthy and [None] is falsy.  The second component of the result is
    ghost: the nodes [node] was bound to at each execution of the body, in
    order. *)
Fixpoint while_node (fuel : nat) (h : gmap addr Node)
    (ll_string : string) (node : option addr) : outcome (string * list addr) :=
  match node with
  | None => Done (ll_string, [])
  | Some a =>
      match fuel with
      | O => OutOfFuel
      | S fuel' =>
          match h !! a with
          | None => Fault
          | Some nd =>
              '(s, visited) ← while_node fuel' h
                                (ll_string +:+ (py_str (data nd) +:+ " => "))
                                (next_node nd);
              Done (s, a :: visited)
          end
      end
  end.

(** [LinkedList.print_LL(self)], with [self] the list object of the state.
    The result pairs the value the call returns with the state it leaves. *)
Definition print_LL (fuel : nat) (st : State) : outcome (PyVal * State) :=
  let ll_string := "" in
  let node := head (ll st) in
  let st := match node with
            | None => print PyNone st
            | Some _ => st
            end in
  '(ll_string, _) ← while_node fuel (heap st) ll_string node;
  let ll_string := ll_string +:+ "None" in
  let st := print (PyStr ll_string) st in
  Done (PyNone, st).

(** ** The statements of the module *)

(** [Node(data, next_node)]: a new object at an address the heap does not
    hold yet. *)
Definition new_Node (data : option PyVal) (next_node : option (option addr))
    (st : State) : addr * State :=
  let a := fresh (dom (heap st)) in
  (a, {| heap := <[a := Node_init data next_node]> (heap st);
         ll := ll st; stdout := stdout st |}).

(** [ll = LinkedList()]. *)
Definition new_LinkedList (st : State) : State :=
  {| heap := heap st; ll := LinkedList_init; stdout := stdout st |}.

(** [ll.head = node]. *)
Definition set_head (node : option addr) (st : State) : State :=
  {| heap := heap st;
     ll := {| head := node; last_node := last_node (ll st) |};
     stdout := stdout st |}.

(** The state in which the module starts: no object, nothing printed. *)
Definition start : State :=
  {| heap := ∅; ll := LinkedList_init; stdout := [] |}.

(** Lines 36-41: the list and the two nodes the module builds. *)
Definition built : State :=
  let st := new_LinkedList start in
  let '(node2, st) := new_Node (Some (PyStr "2")) (Some None) st in
  let '(node1, st) := new_Node (Some (PyStr "fir")) (Some (Some node2)) st in
  set_head (Some node1) st.

(** Lines 36-42, the statements the module runs when it is loaded. *)
Definition main (fuel : nat) : outcome (PyVal * State) :=
  print_LL fuel built.

(** The statements the module is made of, for the states it can reach. *)
Inductive stmt : Type :=
  | SNewLinkedList
  | SNewNode (data : option PyVal) (next_node : option (option addr))
  | SSetHead (node : option addr)
  | SPrintLL.

Definition exec (fuel : nat) (c : stmt) (st : State) : outcome State :=
  match c with
  | SNewLinkedList => Done (new_LinkedList st)
  | SNewNode d n => Done (new_Node d n st).2
  | SSetHead node => Done (set_head node st)
  | SPrintLL => '(_, st') ← print_LL fuel st; Done st'
  end.

Inductive reachable : State → Prop :=
  | reachable_start : reachable start
  | reachable_exec st fuel c st' :
      reachable st → exec fuel c st = Done st' → reachable st'.

(** ** Chains *)

(** [chain h node addrs es]: following [next_node] from [node] in [h] ends
    at [None]; [addrs] are the nodes met on the way and [es] the [data] they
    hold, both in the order met. *)
Inductive chain (h : gmap addr Node)
  : option addr → list addr → list PyVal → Prop :=
  | chain_end : chain h None [] []
  | chain_node a nd addrs es :
      h !! a = Some nd →
      chain h (next_node nd) addrs es →
      chain h (Some a) (a :: addrs) (data nd :: es).

(** The value of [node] after [k] executions of [node = node.next_node];
    [None] once the end of the chain has been passed. *)
Fixpoint nth_node (h : gmap addr Node) (k : nat) (node : option addr)
  : option addr :=
  match k with
  | O => node
  | S k' => nth_node h k' (a ← node; nd ← h !! a; next_node nd)
  end.

(** The walk from [node] meets some node twice. *)
Definition cyclic (h : gmap addr Node) (node : option addr) : Prop :=
  ∃ i j a, i < j ∧ nth_node h i node = Some a ∧ nth_node h j node = Some a.

(** Every reference of the state is to a node of its heap, as in every
    Python state. *)
Definition closed (st : State) : Prop :=
  (∀ a, head (ll st) = Some a → is_Some (heap st !! a)) ∧
  (∀ a nd b, heap st !! a = Some nd → next_node nd = Some b →
             is_Some (heap st !! b)).

(** ** The rendering the specification gives *)

(** The specification's words: one token per element, [str] of its data,
    then the sentinel token, all joined by the separator. *)
Definition separator : string := " => ".
Definition sentinel : string := "None".

Definition tokens (es : list PyVal) : list string :=
  map py_str es ++ [sentinel].

Definition render_spec (es : list PyVal) : string :=
  String.concat separator (tokens es).

(** What the loop has appended to [ll_string] when it ends. *)
Fixpoint appended (es : list PyVal) : string :=
  match es with
  | [] => ""
  | e :: es' => (py_str e +:+ " => ") +:+ appended es'
  end.

(** The state after [print] calls that wrote the lines [out]. *)
Definition emit (out : list string) (st : State) : State :=
  {| heap := heap st; ll := ll st; stdout := stdout st ++ out |}.

(** The lines one call writes for a list holding [es]: the standalone
    [None] of line 18 when the list is empty, then the rendering. *)
Definition lines (node : option addr) (es : list PyVal) : list string :=
  match node with
  | None => [py_str PyNone; render_spec es]
  | Some _ => [render_spec es]
  end.

(** A list whose only node is its own successor, as
    [node = Node("a"); node.next_node = node; ll.head = node] builds it. *)
Definition looped : State :=
  {| heap := {[ 0 := {| data := PyStr "a"; next_node := Some 0 |} ]};
     ll := {| head := Some 0; last_node := None |};
     stdout := [] |}.

(** ** Statements in scope *)

(** A Python expression can only name an object that exists: [r] is
    [None] or a node of the heap. *)
Definition in_scope (st : State) (r : option addr) : Prop :=
  match r with
  | None => True
  | Some a => is_Some (heap st !! a)
  end.

(** The node a statement passes as [next_node], or assigns to [ll.head],
    exists when the statement runs. *)
Definition stmt_in_scope (st : State) (c : stmt) : Prop :=
  match c with
  | SNewNode _ (Some next) => in_scope st next
  | SSetHead node => in_scope st node
  | _ => True
  end.

(** The states the statements of the module reach when each of them names
    existing objects only. *)
Inductive runs : State → Prop :=
  | runs_start : runs start
  | runs_exec st fuel c st' :
      runs st → stmt_in_scope st c → exec fuel c st = Done st' → runs st'.

(** Every node of the heap starts a chain that ends. *)
Definition well_founded (h : gmap addr Node) : Prop :=
  ∀ a, is_Some (h !! a) → ∃ addrs es, chain h (Some a) addrs es.

(** Lines 38-39 for any number of values: one [Node(e, next)] per value,
    the last value first, each node built with the node of the value after
    it as its [next_node].  The result is the node of the first value. *)
Fixpoint build (es : list PyVal) (st : State) : option addr * State :=
  match es with
  | [] => (None, st)
  | e :: es' =>
      let '(next, st) := build es' st in
      let '(node, st) := new_Node (Some e) (Some next) st in
      (Some node, st)
  end.

(** ** Strings *)

Lemma append_assoc (s1 s2 s3 : string) :
  (s1 +:+ s2) +:+ s3 = s1 +:+ (s2 +:+ s3).
Proof.
  induction s1 as [|c s1 IH]; [done |].
  change (String c ((s1 +:+ s2) +:+ s3) = String c (s1 +:+ (s2 +:+ s3))).
  by rewrite IH.
Qed.

Lemma append_empty_r (s : string) : s +:+ "" = s.
Proof.
  induction s as [|c s IH]; [done |].
  change (String c (s +:+ "") = String c s). by rewrite IH.
Qed.

Lemma tokens_cons (e : PyVal) (es : list PyVal) :
  tokens (e :: es) = py_str e :: tokens es.
Proof. done. Qed.

Lemma render_spec_cons (e : PyVal) (es : list PyVal) :
  render_spec (e :: es) = py_str e +:+ (" => " +:+ render_spec es).
Proof.
  unfold render_spec. rewrite tokens_cons.
  unfold tokens. by destruct (map py_str es).
Qed.

Lemma appended_render (es : list PyVal) :
  appended es +:+ "None" = render_spec es.
Proof.
  induction es as [|e es IH]; [done |].
  rewrite render_spec_cons, <- IH. cbn [appended].
  by rewrite !append_assoc.
Qed.

(** ** Chains *)

Section Chains.
Variable h : gmap addr Node.

Lemma chain_length node addrs es :
  chain h node addrs es → length es = length addrs.
Proof. induction 1; simpl; congruence. Qed.

Lemma chain_det node addrs1 es1 addrs2 es2 :
  chain h node addrs1 es1 → chain h node addrs2 es2 →
  addrs1 = addrs2 ∧ es1 = es2.
Proof.
  intros H1. revert addrs2 es2.
  induction H1 as [|a nd addrs es Ha _ IH]; inversion 1; simplify_eq.
  - done.
  - by destruct (IH _ _ ltac:(eassumption)) as [-> ->].
Qed.

Lemma chain_suffix node addrs es a :
  chain h node addrs es → a ∈ addrs →
  ∃ addrs' es', chain h (Some a) addrs' es' ∧ length addrs' ≤ length addrs.
Proof.
  induction 1 as [|b nd addrs es Hb Hc IH]; intros Hin.
  - by apply elem_of_nil in Hin.
  - apply elem_of_cons in Hin as [->|Hin].
    + exists (b :: addrs), (data nd :: es). split; [by econstructor | done].
    + destruct (IH Hin) as (addrs' & es' & ? & ?).
      exists addrs', es'. split; [done | simpl; lia].
Qed.

Lemma chain_NoDup node addrs es : chain h node addrs es → NoDup addrs.
Proof.
  induction 1 as [|a nd addrs es Ha Hc IH]; constructor; [|done].
  intros Hin.
  destruct (chain_suffix _ _ _ _ Hc Hin) as (addrs' & es' & Hc' & Hle).
  destruct (chain_det _ _ _ _ _ Hc' (chain_node h a nd addrs es Ha Hc))
    as [-> _].
  simpl in Hle. lia.
Qed.

Lemma chain_lookup node addrs es k :
  chain h node addrs es → nth_node h k node = addrs !! k.
Proof.
  intros Hc. revert k.
  induction Hc as [|a nd addrs es Ha Hc IH]; intros [|k]; simpl; try done.
  - clear. by induction k.
  - rewrite Ha. simpl. apply IH.
Qed.

(** *** The loop on a chain *)

Lemma while_node_chain node addrs es fuel s :
  chain h node addrs es → length addrs ≤ fuel →
  while_node fuel h s node = Done (s +:+ appended es, addrs).
Proof.
  intros Hc. revert fuel s.
  induction Hc as [|a nd addrs es Ha Hc IH]; intros fuel s Hfuel.
  - destruct fuel; simpl; by rewrite append_empty_r.
  - destruct fuel as [|fuel]; simpl in *; [lia |].
    rewrite Ha, IH by lia. simpl. by rewrite append_assoc.
Qed.

Lemma while_node_short node addrs es fuel s :
  chain h node addrs es → fuel < length addrs →
  while_node fuel h s node = OutOfFuel.
Proof.
  intros Hc. revert fuel s.
  induction Hc as [|a nd addrs es Ha Hc IH]; intros fuel s Hfuel;
    simpl in *; [lia |].
  destruct fuel as [|fuel]; [done |].
  simpl. rewrite Ha, IH by lia. done.
Qed.

Lemma while_node_Done fuel s node s' visited :
  while_node fuel h s node = Done (s', visited) →
  ∃ es, chain h node visited es ∧ s' = s +:+ appended es.
Proof.
  revert s node s' visited.
  induction fuel as [|fuel IH]; intros s [a|] s' visited Hrun;
    simpl in Hrun; simplify_eq.
  - exists []. split; [constructor | by rewrite append_empty_r].
  - destruct (h !! a) as [nd|] eqn:Ha; [|done].
    destruct (while_node fuel h _ (next_node nd)) as [[s1 v1]| |] eqn:Hrec;
      simpl in Hrun; simplify_eq.
    destruct (IH _ _ _ _ Hrec) as (es & Hc & ->).
    exists (data nd :: es). split; [by constructor |].
    simpl. by rewrite append_assoc.
  - exists []. split; [constructor | by rewrite append_empty_r].
Qed.
End Chains.

(** ** Walks that never end *)

Section Walks.
Variable h : gmap addr Node.

Lemma nth_node_None k : nth_node h k None = None.
Proof. by induction k. Qed.

Lemma nth_node_add i j node :
  nth_node h (i + j) node = nth_node h j (nth_node h i node).
Proof. revert node. induction i as [|i IH]; intros node; simpl; auto. Qed.

Lemma chain_ends node addrs es :
  chain h node addrs es → nth_node h (length addrs) node = None.
Proof.
  intros Hc. rewrite (chain_lookup h _ _ _ _ Hc).
  by apply lookup_ge_None.
Qed.

Lemma cyclic_never_ends node k :
  cyclic h node → is_Some (nth_node h k node).
Proof.
  intros (i & j & a & Hij & Hi & Hj).
  induction (lt_wf k) as [k _ IH].
  destruct (decide (k ≤ j)) as [Hk|Hk].
  - destruct (nth_node h k node) as [b|] eqn:Hb; [by eexists |].
    replace j with (k + (j - k)) in Hj by lia.
    rewrite nth_node_add, Hb, nth_node_None in Hj. done.
  - replace k with (j + (k - j)) by lia.
    rewrite nth_node_add, Hj, <- Hi, <- nth_node_add.
    apply IH. lia.
Qed.

Lemma while_node_never_ends fuel s node :
  (∀ k, is_Some (nth_node h k node)) →
  while_node fuel h s node = OutOfFuel.
Proof.
  revert s node. induction fuel as [|fuel IH]; intros s node Hk.
  - destruct (Hk 0) as [a Ha]. simpl in Ha. by subst node.
  - destruct (Hk 0) as [a Ha]. simpl in Ha. subst node. simpl.
    destruct (h !! a) as [nd|] eqn:Hnd.
    + rewrite IH; [done |].
      intros k. specialize (Hk (S k)). simpl in Hk. by rewrite Hnd in Hk.
    + specialize (Hk 1). simpl in Hk. rewrite Hnd in Hk.
      by destruct Hk.
Qed.

(** In a heap without dangling references the loop, while it runs, is at
    a node of the heap. *)
Lemma while_node_running fuel s node :
  (∀ a nd b, h !! a = Some nd → next_node nd = Some b → is_Some (h !! b)) →
  (∀ a, node = Some a → is_Some (h !! a)) →
  while_node fuel h s node = OutOfFuel →
  ∀ k, k ≤ fuel → ∃ a, nth_node h k node = Some a ∧ is_Some (h !! a).
Proof.
  intros Hclosed. revert s node.
  induction fuel as [|fuel IH]; intros s [a|] Hnode Hrun k Hk;
    simpl in Hrun; try done.
  - replace k with 0 by lia. eauto.
  - destruct (Hnode a eq_refl) as [nd Hnd]. rewrite Hnd in Hrun.
    destruct (while_node fuel h _ (next_node nd)) as [[s1 v1]| |] eqn:Hrec;
      simpl in Hrun; try done.
    destruct k as [|k]; [simpl; eauto |].
    simpl. rewrite Hnd. simpl.
    eapply IH; [| exact Hrec | lia].
    intros b Hb. by eapply Hclosed.
Qed.

Lemma while_node_no_Fault fuel s node :
  (∀ a nd b, h !! a = Some nd → next_node nd = Some b → is_Some (h !! b)) →
  (∀ a, node = Some a → is_Some (h !! a)) →
  while_node fuel h s node ≠ Fault.
Proof.
  intros Hclosed. revert s node.
  induction fuel as [|fuel IH]; intros s [a|] Hnode; simpl; try done.
  destruct (Hnode a eq_refl) as [nd Hnd]. rewrite Hnd.
  specialize (IH (s +:+ py_str (data nd) +:+ " => ") (next_node nd)).
  destruct (while_node fuel h _ (next_node nd)) as [[s1 v1]| |]; try done.
  intros _. apply IH; [|done]. intros b Hb. by eapply Hclosed.
Qed.

(** A list with a repeated element has it at two positions. *)
Lemma repeated_positions {A} `{EqDecision A} (l : list A) :
  ¬ NoDup l → ∃ i j x, i < j ∧ l !! i = Some x ∧ l !! j = Some x.
Proof.
  induction l as [|x l IH]; intros Hdup.
  - destruct Hdup. constructor.
  - destruct (decide (x ∈ l)) as [Hin|Hin].
    + apply list_elem_of_lookup in Hin as [j Hj].
      exists 0, (S j), x. split; [lia | done].
    + destruct IH as (i & j & y & Hij & Hi & Hj).
      { intros Hnd. apply Hdup. by constructor. }
      exists (S i), (S j), y. split; [lia | done].
Qed.

(** Pigeonhole: a walk longer than the heap has nodes meets one twice. *)
Lemma long_walk_cyclic node :
  (∀ k, k ≤ size h → ∃ a, nth_node h k node = Some a ∧ is_Some (h !! a)) →
  cyclic h node.
Proof.
  intros Hwalk.
  set (l := (λ k, nth_node h k node) <$> seq 0 (S (size h))).
  assert (Hl : ∀ k x, l !! k = Some x → k ≤ size h ∧ x = nth_node h k node).
  { intros k x Hk. unfold l in Hk. rewrite list_lookup_fmap in Hk.
    destruct (seq 0 (S (size h)) !! k) as [k'|] eqn:Hseq; [|done].
    apply lookup_seq in Hseq as [-> ?]. simpl in Hk.
    split; [lia | congruence]. }
  destruct (decide (NoDup l)) as [Hnd|Hdup].
  - exfalso.
    assert (Hsub : l ⊆+ (Some <$> elements (dom h))).
    { apply NoDup_submseteq; [done |].
      intros x Hx. apply list_elem_of_lookup in Hx as [k Hk].
      destruct (Hl _ _ Hk) as [Hle ->].
      destruct (Hwalk k Hle) as (a & -> & Ha).
      apply list_elem_of_fmap. exists a. split; [done |].
      by apply elem_of_elements, elem_of_dom. }
    apply submseteq_length in Hsub.
    unfold l in Hsub. rewrite !length_fmap, length_seq in Hsub.
    change (length (elements (dom h))) with (size (dom h)) in Hsub.
    rewrite size_dom in Hsub. lia.
  - destruct (repeated_positions l Hdup) as (i & j & x & Hij & Hi & Hj).
    destruct (Hl _ _ Hi) as [Hile Hxi]. destruct (Hl _ _ Hj) as [_ Hxj].
    destruct (Hwalk i Hile) as (a & Ha & _).
    exists i, j, a. split; [done |]. split; congruence.
Qed.
End Walks.

(** ** print_LL on chains and on walks *)

Lemma print_LL_chain st addrs es fuel :
  chain (heap st) (head (ll st)) addrs es → length addrs ≤ fuel →
  print_LL fuel st = Done (PyNone, emit (lines (head (ll st)) es) st).
Proof.
  intros Hc Hfuel. unfold print_LL.
  destruct (head (ll st)) as [a|] eqn:Hhead.
  - rewrite (while_node_chain _ _ _ _ _ _ Hc Hfuel). simpl.
    unfold print, emit. simpl. do 3 f_equal.
    change ("" +:+ appended es) with (appended es).
    by rewrite appended_render.
  - rewrite (while_node_chain _ _ _ _ _ _ Hc Hfuel). simpl.
    unfold print, emit. simpl. rewrite <- app_assoc. simpl. do 4 f_equal.
    change ("" +:+ appended es) with (appended es).
    by rewrite appended_render.
Qed.

Lemma print_LL_short st addrs es fuel :
  chain (heap st) (head (ll st)) addrs es → fuel < length addrs →
  print_LL fuel st = OutOfFuel.
Proof.
  intros Hc Hfuel. unfold print_LL.
  destruct (head (ll st)) as [a|] eqn:Hhead.
  - by rewrite (while_node_short _ _ _ _ _ _ Hc Hfuel).
  - inversion Hc; subst. simpl in Hfuel. lia.
Qed.

Lemma print_LL_Done fuel st v st' :
  print_LL fuel st = Done (v, st') →
  ∃ addrs es, chain (heap st) (head (ll st)) addrs es ∧ length addrs ≤ fuel ∧
              v = PyNone ∧ st' = emit (lines (head (ll st)) es) st.
Proof.
  intros Hrun.
  assert (∃ addrs es, chain (heap st) (head (ll st)) addrs es ∧
                      length addrs ≤ fuel) as (addrs & es & Hc & Hfuel).
  { unfold print_LL in Hrun.
    destruct (head (ll st)) as [a|].
    - destruct (while_node fuel _ _ _) as [[s visited]| |] eqn:Hloop;
        simpl in Hrun; try done.
      destruct (while_node_Done _ _ _ _ _ _ Hloop) as (es & Hc & _).
      exists visited, es. split; [done |].
      destruct (decide (length visited ≤ fuel)) as [|Hlt]; [done |].
      rewrite (while_node_short _ _ _ _ _ _ Hc) in Hloop by lia. done.
    - exists [], []. split; [constructor | simpl; lia]. }
  rewrite (print_LL_chain _ _ _ _ Hc Hfuel) in Hrun.
  exists addrs, es. by simplify_eq.
Qed.

Lemma print_LL_OutOfFuel fuel st :
  print_LL fuel st = OutOfFuel →
  while_node fuel (heap st) "" (head (ll st)) = OutOfFuel.
Proof.
  unfold print_LL. destruct (head (ll st)) as [a|].
  - by destruct (while_node fuel _ _ _) as [[s visited]| |].
  - by destruct fuel.
Qed.

Lemma print_LL_no_Fault fuel st : closed st → print_LL fuel st ≠ Fault.
Proof.
  intros [Hhead Hnext]. unfold print_LL.
  destruct (head (ll st)) as [a|] eqn:Ha.
  - pose proof (while_node_no_Fault (heap st) fuel "" (Some a) Hnext) as Hnf.
    destruct (while_node fuel _ _ _) as [[s visited]| |]; try done.
    intros _. apply Hnf; [|done]. intros b [= <-]. by apply Hhead.
  - by destruct fuel.
Qed.

Lemma cyclic_print_LL fuel st :
  cyclic (heap st) (head (ll st)) → print_LL fuel st = OutOfFuel.
Proof.
  intros Hcyc. unfold print_LL.
  destruct (head (ll st)) as [a|] eqn:Ha.
  - rewrite while_node_never_ends; [done |].
    intros k. by apply cyclic_never_ends.
  - destruct (cyclic_never_ends _ _ 0 Hcyc) as [b Hb]. done.
Qed.

Lemma stuck_print_LL_cyclic st :
  closed st → (∀ fuel, print_LL fuel st = OutOfFuel) →
  cyclic (heap st) (head (ll st)).
Proof.
  intros [Hhead Hnext] Hrun. apply long_walk_cyclic.
  apply (while_node_running _ (size (heap st)) "" _ Hnext Hhead).
  apply print_LL_OutOfFuel, Hrun.
Qed.

Lemma acyclic_chain st :
  closed st → ¬ cyclic (heap st) (head (ll st)) →
  ∃ addrs es, chain (heap st) (head (ll st)) addrs es.
Proof.
  intros Hclosed Hacyc.
  destruct (print_LL (size (heap st)) st) as [[v st']| |] eqn:Hrun.
  - destruct (print_LL_Done _ _ _ _ Hrun) as (addrs & es & Hc & _). eauto.
  - destruct Hacyc. destruct Hclosed as [Hhead Hnext].
    apply long_walk_cyclic.
    apply (while_node_running _ (size (heap st)) "" _ Hnext Hhead).
    by apply print_LL_OutOfFuel.
  - by destruct (print_LL_no_Fault _ _ Hclosed Hrun).
Qed.

(** ** The list the module builds *)

Lemma built_chain :
  chain (heap built) (head (ll built)) [1; 0] [PyStr "fir"; PyStr "2"].
Proof.
  apply (chain_node _ 1 (mkNode (PyStr "fir") (Some 0))); [reflexivity |].
  apply (chain_node _ 0 (mkNode (PyStr "2") None)); [reflexivity |].
  constructor.
Qed.

Lemma built_acyclic : ¬ cyclic (heap built) (head (ll built)).
Proof.
  intros Hcyc.
  destruct (cyclic_never_ends _ _ 2 Hcyc) as [a Ha].
  pose proof (chain_ends _ _ _ _ built_chain) as Hend.
  simpl length in Hend. congruence.
Qed.

Lemma looped_cyclic : cyclic (heap looped) (head (ll looped)).
Proof. exists 0, 1, 0. split; [lia |]. split; reflexivity. Qed.

Lemma looped_closed : closed looped.
Proof.
  split.
  - intros a [= <-]. by eexists.
  - intros a nd b Ha Hb. unfold looped in Ha. simpl in Ha.
    apply lookup_singleton_Some in Ha as [<- <-].
    simpl in Hb. simplify_eq. by eexists.
Qed.

Lemma built_reachable : reachable built.
Proof.
  pose proof reachable_start as H0.
  pose proof (reachable_exec _ 0 SNewLinkedList _ H0 eq_refl) as H1.
  pose proof (reachable_exec _ 0 (SNewNode (Some (PyStr "2")) (Some None))
                _ H1 eq_refl) as H2.
  pose proof (reachable_exec _ 0
                (SNewNode (Some (PyStr "fir")) (Some (Some 0)))
                _ H2 eq_refl) as H3.
  exact (reachable_exec _ 0 (SSetHead (Some 1)) _ H3 eq_refl).
Qed.

Lemma built_closed : closed built.
Proof.
  split.
  - intros a [= <-]. by eexists.
  - intros a nd b Ha Hb.
    destruct (decide (a = 1)) as [->|?]; [|destruct (decide (a = 0)) as [->|?]].
    + vm_compute in Ha. simplify_eq. simpl in Hb. simplify_eq. by eexists.
    + vm_compute in Ha. simplify_eq.
    + unfold built in Ha. simpl in Ha.
      rewrite lookup_insert_ne, lookup_insert_ne, lookup_empty in Ha; done.
Qed.

(** ** The constructors *)

(** C8. [LinkedList.__init__] leaves [head] and [last_node] both [None]:
    [ll = LinkedList()] binds [ll] to such a list in every state, touches
    nothing else, and always completes, whatever the state and the fuel. *)
Theorem LinkedList_init_empty (fuel : nat) (st : State) :
  head LinkedList_init = None ∧ last_node LinkedList_init = None ∧
  exec fuel SNewLinkedList st = Done (new_LinkedList st) ∧
  ll (new_LinkedList st) = LinkedList_init ∧
  heap (new_LinkedList st) = heap st ∧
  stdout (new_LinkedList st) = stdout st.
Proof. by repeat split. Qed.

(** C10. [Node()] has [data = None] and [next_node = None].  [str] of that
    data is the token ["None"], the very text of the end-of-chain sentinel:
    a list whose first node holds [None] prints like one whose first node
    holds the string ["None"], and the list of one [Node()] prints
    ["None => None"]. *)
Theorem Node_default_prints_None :
  Node_init None None = {| data := PyNone; next_node := None |} ∧
  py_str (data (Node_init None None)) = sentinel ∧
  (∀ es, render_spec (PyNone :: es) = render_spec (PyStr "None" :: es)) ∧
  (let '(node, st) := new_Node None None (new_LinkedList start) in
   print_LL 1 (set_head (Some node) st)
   = Done (PyNone, emit ["None => None"] (set_head (Some node) st))).
Proof. by repeat split. Qed.

(** ** What print_LL writes *)

(** C1. For a non-empty list whose chain from [head] holds the elements
    [es], in that order, [print_LL] writes exactly one line: the tokens
    [str e1], ..., [str en] in chain order, then the token ["None"], joined
    by [" => "]. *)
Theorem print_LL_render (st : State) (addrs : list addr) (es : list PyVal)
    (fuel : nat) :
  chain (heap st) (head (ll st)) addrs es → es ≠ [] → length es ≤ fuel →
  print_LL fuel st
  = Done (PyNone,
          emit [String.concat " => " (map py_str es ++ ["None"])] st).
Proof.
  intros Hc Hes Hfuel.
  rewrite (print_LL_chain st addrs es fuel Hc)
    by (rewrite <- (chain_length _ _ _ _ Hc); exact Hfuel).
  inversion Hc as [Hnode|a nd addrs' es' Ha Hc' Hnode]; subst.
  - done.
  - reflexivity.
Qed.

Lemma print_LL_render_witness :
  print_LL 2 built = Done (PyNone, emit ["fir => 2 => None"] built).
Proof.
  apply (print_LL_render built [1; 0] [PyStr "fir"; PyStr "2"] 2).
  - exact built_chain.
  - discriminate.
  - simpl. lia.
Defined.

(** C2. For the empty list [print_LL] does what [print(None)] followed by
    [print("None")] does: a line of its own holding [None], then the line
    ["None"], the sentinel with no [" => "] before it. *)
Theorem print_LL_empty (st : State) (fuel : nat) :
  head (ll st) = None →
  print_LL fuel st = Done (PyNone, print (PyStr "None") (print PyNone st)) ∧
  stdout (print (PyStr "None") (print PyNone st))
  = stdout st ++ ["None"; "None"].
Proof.
  intros Hhead. unfold print_LL. rewrite Hhead. split.
  - by destruct fuel.
  - simpl. by rewrite <- app_assoc.
Qed.

Lemma print_LL_empty_witness :
  print_LL 0 start = Done (PyNone, print (PyStr "None") (print PyNone start)) ∧
  stdout (print (PyStr "None") (print PyNone start)) = ["None"; "None"].
Proof. apply (print_LL_empty start 0). reflexivity. Defined.

(** C6. For a list of exactly one element, holding [d], [print_LL] writes
    the line [str d] followed by [" => None"]: the separator comes after the
    element and nowhere before it.  For [d] the string ["x"] the line is
    ["x => None"]. *)
Theorem print_LL_single (st : State) (a : addr) (d : PyVal) (fuel : nat) :
  head (ll st) = Some a →
  heap st !! a = Some {| data := d; next_node := None |} →
  1 ≤ fuel →
  print_LL fuel st = Done (PyNone, emit [py_str d +:+ " => None"] st) ∧
  py_str (PyStr "x") +:+ " => None" = "x => None".
Proof.
  intros Hhead Ha Hfuel. split; [|done].
  assert (Hc : chain (heap st) (head (ll st)) [a] [d]).
  { rewrite Hhead.
    apply (chain_node _ a {| data := d; next_node := None |}); [done |].
    constructor. }
  rewrite (print_LL_chain st [a] [d] fuel Hc Hfuel), Hhead. reflexivity.
Qed.

Lemma print_LL_single_witness :
  let st := set_head (Some 0) (new_Node (Some (PyStr "x")) None start).2 in
  print_LL 1 st = Done (PyNone, emit ["x => None"] st).
Proof.
  intros st.
  apply (print_LL_single st 0 (PyStr "x") 1);
    [reflexivity | reflexivity | lia].
Defined.

(** C7. The module builds [node2 = Node("2", None)],
    [node1 = Node("fir", node2)] and sets [ll.head = node1]; its call of
    [print_LL] then writes exactly the line ["fir => 2 => None"]. *)
Theorem main_output (fuel : nat) :
  ∃ node1 node2 st',
    head (ll built) = Some node1 ∧
    heap built !! node1
    = Some {| data := PyStr "fir"; next_node := Some node2 |} ∧
    heap built !! node2 = Some {| data := PyStr "2"; next_node := None |} ∧
    stdout built = [] ∧
    main (S (S fuel)) = Done (PyNone, st') ∧
    stdout st' = ["fir => 2 => None"].
Proof.
  exists 1, 0, (emit ["fir => 2 => None"] built).
  repeat split. unfold main.
  apply (print_LL_chain built _ _ _ built_chain). simpl. lia.
Qed.

(** ** Termination *)

(** C3. On a list whose chain from [head] ends, [print_LL] terminates
    after exactly as many executions of the loop body as the list has
    elements, at each node of the chain once: that much fuel is enough, no
    smaller amount is, the nodes visited are those of the chain in order,
    and none occurs twice.  In a state without dangling references a chain
    that is not cyclic does end, and a call that runs forever has a cyclic
    chain (on which it does run forever). *)
Theorem print_LL_terminates (st : State) :
  (∀ addrs es, chain (heap st) (head (ll st)) addrs es →
     length addrs = length es ∧ NoDup addrs ∧
     (∃ s, while_node (length es) (heap st) "" (head (ll st))
           = Done (s, addrs)) ∧
     (∀ fuel, length es ≤ fuel → ∃ st', print_LL fuel st = Done (PyNone, st')) ∧
     (∀ fuel, fuel < length es → print_LL fuel st = OutOfFuel)) ∧
  (closed st → ¬ cyclic (heap st) (head (ll st)) →
     ∃ addrs es, chain (heap st) (head (ll st)) addrs es) ∧
  (closed st → (∀ fuel, print_LL fuel st = OutOfFuel) →
     cyclic (heap st) (head (ll st))) ∧
  (cyclic (heap st) (head (ll st)) → ∀ fuel, print_LL fuel st = OutOfFuel).
Proof.
  split; [|split; [|split]].
  - intros addrs es Hc.
    pose proof (chain_length _ _ _ _ Hc) as Hlen.
    split; [done |]. split; [by eapply chain_NoDup |].
    split; [|split].
    + eexists. apply (while_node_chain _ _ _ _ _ _ Hc). lia.
    + intros fuel Hfuel. eexists.
      apply (print_LL_chain _ _ _ _ Hc). lia.
    + intros fuel Hfuel. apply (print_LL_short _ _ _ _ Hc). lia.
  - apply acyclic_chain.
  - apply stuck_print_LL_cyclic.
  - intros Hcyc fuel. by apply cyclic_print_LL.
Qed.

Lemma print_LL_terminates_witness :
  (NoDup [1; 0] ∧
   (∃ st', print_LL 2 built = Done (PyNone, st')) ∧
   print_LL 1 built = OutOfFuel) ∧
  (∃ addrs es, chain (heap built) (head (ll built)) addrs es) ∧
  (∀ fuel, print_LL fuel looped = OutOfFuel) ∧
  cyclic (heap looped) (head (ll looped)).
Proof.
  destruct (print_LL_terminates built) as (Hchain & Hacyc & _ & _).
  destruct (print_LL_terminates looped) as (_ & _ & Hstuck & Hcyc).
  destruct (Hchain _ _ built_chain) as (_ & Hnd & _ & Hdone & Hshort).
  split; [split; [exact Hnd | split] |].
  - apply (Hdone 2). simpl. lia.
  - apply (Hshort 1). simpl. lia.
  - split; [exact (Hacyc built_closed built_acyclic) |].
    split; [exact (Hcyc looped_cyclic) |].
    exact (Hstuck looped_closed (Hcyc looped_cyclic)).
Defined.

(** ** print_LL only reads the list *)

(** C9. [print_LL] returns [None], never the text: a call that returns
    leaves the heap and the list object as they were and has only appended
    its lines, the last of them the rendering, to the output; and on a list
    whose chain ends the call does return. *)
Theorem print_LL_returns_None (st : State) :
  (∀ addrs es, chain (heap st) (head (ll st)) addrs es →
     print_LL (length addrs) st
     = Done (PyNone, emit (lines (head (ll st)) es) st)) ∧
  (∀ fuel v st', print_LL fuel st = Done (v, st') →
     v = PyNone ∧ heap st' = heap st ∧ ll st' = ll st ∧
     ∃ es, stdout st' = stdout st ++ lines (head (ll st)) es).
Proof.
  split.
  - intros addrs es Hc. by apply (print_LL_chain _ _ _ _ Hc).
  - intros fuel v st' Hrun.
    destruct (print_LL_Done _ _ _ _ Hrun) as (addrs & es & _ & _ & -> & ->).
    repeat split. by exists es.
Qed.

Lemma print_LL_returns_None_witness :
  print_LL 2 built = Done (PyNone, emit ["fir => 2 => None"] built).
Proof. exact (proj1 (print_LL_returns_None built) _ _ built_chain). Defined.

(** C4. On a list whose chain ends, two calls of [print_LL] in a row
    write the same lines, and neither changes the heap (no node's [data]
    or [next_node]) or the list object ([head], [last_node]). *)
Theorem print_LL_twice (st : State) (addrs : list addr) (es : list PyVal)
    (fuel1 fuel2 : nat) :
  chain (heap st) (head (ll st)) addrs es →
  length addrs ≤ fuel1 → length addrs ≤ fuel2 →
  ∃ out st1 st2,
    print_LL fuel1 st = Done (PyNone, st1) ∧
    print_LL fuel2 st1 = Done (PyNone, st2) ∧
    stdout st1 = stdout st ++ out ∧
    stdout st2 = stdout st1 ++ out ∧
    heap st1 = heap st ∧ ll st1 = ll st ∧
    heap st2 = heap st ∧ ll st2 = ll st.
Proof.
  intros Hc Hfuel1 Hfuel2.
  exists (lines (head (ll st)) es), (emit (lines (head (ll st)) es) st),
    (emit (lines (head (ll st)) es) (emit (lines (head (ll st)) es) st)).
  split; [by apply (print_LL_chain _ _ _ _ Hc) |].
  split; [|done].
  by apply (print_LL_chain (emit _ st) addrs es fuel2).
Qed.

Lemma print_LL_twice_witness :
  ∃ out st1 st2,
    print_LL 2 built = Done (PyNone, st1) ∧
    print_LL 2 st1 = Done (PyNone, st2) ∧
    stdout st1 = stdout built ++ out ∧
    stdout st2 = stdout st1 ++ out ∧
    heap st1 = heap built ∧ ll st1 = ll built ∧
    heap st2 = heap built ∧ ll st2 = ll built.
Proof.
  apply (print_LL_twice built [1; 0] [PyStr "fir"; PyStr "2"] 2 2).
  - exact built_chain.
  - simpl. lia.
  - simpl. lia.
Defined.

(** ** last_node *)

Lemma exec_last_node fuel c st st' :
  exec fuel c st = Done st' →
  last_node (ll st') = None ∨ last_node (ll st') = last_node (ll st).
Proof.
  destruct c; simpl; intros Hrun; simplify_eq; auto.
  destruct (print_LL fuel st) as [[v st1]| |] eqn:Hp; simpl in Hrun;
    simplify_eq.
  destruct (print_LL_Done _ _ _ _ Hp) as (addrs & es & _ & _ & _ & ->).
  auto.
Qed.

(** C5. [LinkedList()] leaves [last_node] at [None], [print_LL] leaves
    [last_node] as it finds it, and so [last_node] is [None] in every state
    the statements of the module can reach. *)
Theorem last_node_None :
  (∀ st, last_node (ll (new_LinkedList st)) = None) ∧
  (∀ fuel st v st', print_LL fuel st = Done (v, st') →
     last_node (ll st') = last_node (ll st)) ∧
  (∀ st, reachable st → last_node (ll st) = None).
Proof.
  split; [done |]. split.
  - intros fuel st v st' Hrun.
    by destruct (print_LL_Done _ _ _ _ Hrun) as (addrs & es & _ & _ & _ & ->).
  - induction 1 as [|st fuel c st' _ IH Hrun]; [done |].
    destruct (exec_last_node _ _ _ _ Hrun) as [?|Heq]; congruence.
Qed.

Lemma last_node_None_witness :
  last_node (ll (emit ["fir => 2 => None"] built)) = None.
Proof.
  apply (proj2 (proj2 last_node_None)).
  apply (reachable_exec built 2 SPrintLL); [exact built_reachable |].
  reflexivity.
Defined.

(** ** Building nodes *)

Lemma chain_in_heap h node addrs es a :
  chain h node addrs es → a ∈ addrs → is_Some (h !! a).
Proof.
  induction 1 as [|b nd addrs es Hb Hc IH]; intros Hin.
  - by apply elem_of_nil in Hin.
  - apply elem_of_cons in Hin as [->|Hin]; [by eexists | auto].
Qed.

Lemma chain_insert h a nd node addrs es :
  h !! a = None → chain h node addrs es →
  chain (<[a := nd]> h) node addrs es.
Proof.
  intros Ha. induction 1 as [|b ndb addrs es Hb Hc IH]; [constructor |].
  apply (chain_node _ b ndb); [|done].
  rewrite lookup_insert_ne; [done |]. intros ->. congruence.
Qed.

Lemma chain_size h node addrs es :
  chain h node addrs es → length addrs ≤ size h.
Proof.
  intros Hc. rewrite <- size_dom.
  change (size (dom h)) with (length (elements (dom h))).
  apply submseteq_length, NoDup_submseteq; [by eapply chain_NoDup |].
  intros a Ha. apply elem_of_elements, elem_of_dom.
  by eapply chain_in_heap.
Qed.

Lemma chain_cons_head h node addrs e es :
  chain h node addrs (e :: es) → ∃ a, node = Some a.
Proof. inversion 1; eauto. Qed.

Lemma new_Node_fresh d n st : heap st !! (new_Node d n st).1 = None.
Proof. apply not_elem_of_dom, is_fresh. Qed.

Lemma build_chain es st :
  ∃ addrs,
    chain (heap (build es st).2) (build es st).1 addrs es ∧
    ll (build es st).2 = ll st ∧ stdout (build es st).2 = stdout st.
Proof.
  induction es as [|e es IH]; simpl.
  - exists []. split; [constructor | done].
  - destruct IH as (addrs & Hc & Hll & Hout).
    destruct (build es st) as [next st1]. simpl in *.
    exists (fresh (dom (heap st1)) :: addrs). split; [|done].
    apply (chain_node _ _ {| data := e; next_node := next |}).
    + apply lookup_insert_eq.
    + apply chain_insert; [|done]. apply (new_Node_fresh (Some e) (Some next)).
Qed.

(** X1. Putting a new node in front: when the list holds [es], building
    [Node(d, ll.head)] and assigning it to [ll.head] gives a list that
    prints the token of [d] followed by those of [es], as the list of
    [d :: es]. *)
Theorem print_LL_prepend (st : State) (addrs : list addr) (es : list PyVal)
    (d : PyVal) (fuel : nat) :
  chain (heap st) (head (ll st)) addrs es → length es < fuel →
  let node := (new_Node (Some d) (Some (head (ll st))) st).1 in
  let st1 := set_head (Some node)
               (new_Node (Some d) (Some (head (ll st))) st).2 in
  chain (heap st1) (head (ll st1)) (node :: addrs) (d :: es) ∧
  print_LL fuel st1
  = Done (PyNone,
          emit [String.concat " => " (map py_str (d :: es) ++ ["None"])] st1).
Proof.
  intros Hc Hfuel node st1.
  assert (Hc1 : chain (heap st1) (head (ll st1)) (node :: addrs) (d :: es)).
  { apply (chain_node _ node {| data := d; next_node := head (ll st) |}).
    - apply lookup_insert_eq.
    - apply chain_insert; [|done].
      apply (new_Node_fresh (Some d) (Some (head (ll st)))). }
  split; [done |].
  rewrite (print_LL_chain st1 _ _ fuel Hc1); [done |].
  simpl. rewrite <- (chain_length _ _ _ _ Hc). lia.
Qed.

Lemma print_LL_prepend_witness :
  let st1 := set_head (Some 2)
               (new_Node (Some (PyInt 0)) (Some (Some 1)) built).2 in
  chain (heap st1) (head (ll st1)) [2; 1; 0]
    [PyInt 0; PyStr "fir"; PyStr "2"] ∧
  print_LL 3 st1 = Done (PyNone, emit ["0 => fir => 2 => None"] st1).
Proof.
  apply (print_LL_prepend built [1; 0] [PyStr "fir"; PyStr "2"] (PyInt 0) 3).
  - exact built_chain.
  - simpl. lia.
Defined.

(** X2. Building a node disturbs nothing: [Node(d, n)] sits at an address
    no node had, every other node is as it was, and the list prints what it
    printed before. *)
Theorem new_Node_frame (st : State) (d : option PyVal)
    (n : option (option addr)) (addrs : list addr) (es : list PyVal)
    (fuel : nat) :
  chain (heap st) (head (ll st)) addrs es → length addrs ≤ fuel →
  let node := (new_Node d n st).1 in
  let st1 := (new_Node d n st).2 in
  heap st !! node = None ∧
  heap st1 !! node = Some (Node_init d n) ∧
  (∀ b, b ≠ node → heap st1 !! b = heap st !! b) ∧
  chain (heap st1) (head (ll st1)) addrs es ∧
  print_LL fuel st = Done (PyNone, emit (lines (head (ll st)) es) st) ∧
  print_LL fuel st1 = Done (PyNone, emit (lines (head (ll st)) es) st1).
Proof.
  intros Hc Hfuel node st1.
  pose proof (new_Node_fresh d n st) as Hfresh.
  assert (Hc1 : chain (heap st1) (head (ll st1)) addrs es).
  { by apply chain_insert. }
  split; [done |]. split; [apply lookup_insert_eq |].
  split; [intros b Hb; by apply lookup_insert_ne |].
  split; [done |].
  split; [by apply (print_LL_chain _ _ _ _ Hc) |].
  by apply (print_LL_chain st1 _ _ _ Hc1).
Qed.

Lemma new_Node_frame_witness :
  let st1 := (new_Node (Some (PyStr "x")) None built).2 in
  heap built !! 2 = None ∧
  heap st1 !! 2 = Some {| data := PyStr "x"; next_node := None |} ∧
  (∀ b, b ≠ 2 → heap st1 !! b = heap built !! b) ∧
  chain (heap st1) (head (ll st1)) [1; 0] [PyStr "fir"; PyStr "2"] ∧
  print_LL 2 built = Done (PyNone, emit ["fir => 2 => None"] built) ∧
  print_LL 2 st1 = Done (PyNone, emit ["fir => 2 => None"] st1).
Proof.
  apply (new_Node_frame built (Some (PyStr "x")) None [1; 0]
           [PyStr "fir"; PyStr "2"] 2).
  - exact built_chain.
  - simpl. lia.
Defined.

(** X3. The line of a list is the token of its first node, the separator,
    and the line of the list that starts at that node's successor: when
    [ll.head] is a node holding [d] whose [next_node] is the node [b], and
    the list with head [b] prints [line], the list prints
    [str d + " => " + line]. *)
Theorem print_LL_tail (st : State) (a b : addr) (nd : Node) (fuel : nat)
    (v : PyVal) (st' : State) :
  head (ll st) = Some a → heap st !! a = Some nd → next_node nd = Some b →
  print_LL fuel (set_head (Some b) st) = Done (v, st') →
  ∃ line,
    stdout st' = stdout st ++ [line] ∧
    print_LL (S fuel) st
    = Done (PyNone, emit [py_str (data nd) +:+ " => " +:+ line] st).
Proof.
  intros Hhead Ha Hb Hrun.
  destruct (print_LL_Done _ _ _ _ Hrun) as (addrs & es & Hc & Hfuel & _ & ->).
  simpl in Hc. exists (render_spec es). split; [done |].
  assert (Hc1 : chain (heap st) (head (ll st)) (a :: addrs) (data nd :: es)).
  { rewrite Hhead. apply chain_node; [done |]. by rewrite Hb. }
  rewrite (print_LL_chain st _ _ (S fuel) Hc1) by (simpl; lia).
  by rewrite Hhead, <- render_spec_cons.
Qed.

Lemma print_LL_tail_witness :
  ∃ line,
    stdout (emit ["2 => None"] (set_head (Some 0) built))
    = stdout built ++ [line] ∧
    print_LL 2 built = Done (PyNone, emit ["fir => " +:+ line] built).
Proof.
  apply (print_LL_tail built 1 0 {| data := PyStr "fir"; next_node := Some 0 |}
           1 PyNone (emit ["2 => None"] (set_head (Some 0) built)));
    reflexivity.
Defined.

(** X4. Building and printing: for any values [es], not none, the nodes
    built one per value from the last to the first, each with the next
    value's node as [next_node], and the first assigned to [ll.head], print
    as the one line [str e1 => ... => str en => None]. *)
Theorem build_print_LL (es : list PyVal) (st : State) (fuel : nat) :
  es ≠ [] → length es ≤ fuel →
  let st1 := set_head (build es st).1 (build es st).2 in
  stdout st1 = stdout st ∧
  print_LL fuel st1
  = Done (PyNone,
          emit [String.concat " => " (map py_str es ++ ["None"])] st1).
Proof.
  intros Hes Hfuel st1.
  destruct (build_chain es st) as (addrs & Hc & _ & Hout).
  split; [done |].
  assert (Hc1 : chain (heap st1) (head (ll st1)) addrs es) by done.
  rewrite (print_LL_chain st1 _ _ fuel Hc1)
    by (rewrite <- (chain_length _ _ _ _ Hc); exact Hfuel).
  destruct es as [|e es]; [done |].
  destruct (chain_cons_head _ _ _ _ _ Hc1) as [a ->]. done.
Qed.

Lemma build_print_LL_witness :
  set_head (build [PyStr "fir"; PyStr "2"] (new_LinkedList start)).1
    (build [PyStr "fir"; PyStr "2"] (new_LinkedList start)).2 = built ∧
  stdout built = stdout (new_LinkedList start) ∧
  print_LL 2 built = Done (PyNone, emit ["fir => 2 => None"] built).
Proof.
  split; [reflexivity |].
  apply (build_print_LL [PyStr "fir"; PyStr "2"] (new_LinkedList start) 2).
  - discriminate.
  - simpl. lia.
Defined.

(** ** Lists the module can build *)

Lemma exec_sound fuel c st st' :
  stmt_in_scope st c → exec fuel c st = Done st' →
  closed st ∧ well_founded (heap st) →
  closed st' ∧ well_founded (heap st').
Proof.
  intros Hscope Hrun [[Hhead Hnext] Hwf].
  destruct c as [|d n|node|]; simpl in Hrun; simplify_eq.
  - split; [split |]; [intros a [=] | exact Hnext | exact Hwf].
  - pose proof (new_Node_fresh d n st) as Hfresh. simpl in Hfresh.
    set (a0 := fresh (dom (heap st))) in *.
    assert (Hkeep : ∀ b, is_Some (heap st !! b) →
                         is_Some (<[a0 := Node_init d n]> (heap st) !! b)).
    { intros b Hb. apply lookup_insert_is_Some. destruct (decide (a0 = b));
        [by left | by right]. }
    assert (Hnew : ∀ b, next_node (Node_init d n) = Some b →
                        is_Some (heap st !! b)).
    { intros b Hb. destruct n as [[c|]|]; simpl in Hb; simplify_eq.
      exact Hscope. }
    split; [split |]; simpl.
    + intros a Ha. by apply Hkeep, Hhead.
    + intros a nd b Ha Hb. apply Hkeep.
      destruct (decide (a0 = a)) as [->|Hne].
      * rewrite lookup_insert_eq in Ha. simplify_eq. by apply Hnew.
      * rewrite lookup_insert_ne in Ha by done. by eapply Hnext.
    + intros a Ha. destruct (decide (a0 = a)) as [<-|Hne].
      * assert (Hcn : ∃ addrs es,
                  chain (heap st) (next_node (Node_init d n)) addrs es).
        { destruct (next_node (Node_init d n)) as [b|] eqn:Hb.
          - apply Hwf, Hnew. done.
          - exists [], []. constructor. }
        destruct Hcn as (addrs & es & Hc).
        exists (a0 :: addrs), (data (Node_init d n) :: es).
        apply chain_node; [apply lookup_insert_eq |].
        by apply chain_insert.
      * rewrite lookup_insert_ne in Ha by done.
        destruct (Hwf a Ha) as (addrs & es & Hc).
        exists addrs, es. by apply chain_insert.
  - split; [split |]; [| exact Hnext | exact Hwf].
    simpl. intros a ->. exact Hscope.
  - destruct (print_LL fuel st) as [[v st1]| |] eqn:Hp; simpl in Hrun;
      simplify_eq.
    destruct (print_LL_Done _ _ _ _ Hp) as (addrs & es & _ & _ & _ & ->).
    split; [split |]; [exact Hhead | exact Hnext | exact Hwf].
Qed.

Lemma runs_sound st : runs st → closed st ∧ well_founded (heap st).
Proof.
  induction 1 as [|st fuel c st' _ IH Hscope Hrun].
  - split; [split |].
    + intros a [=].
    + intros a nd b Ha. by destruct (lookup_empty_Some (M := gmap addr) a nd).
    + intros a [nd Ha]. by destruct (lookup_empty_Some (M := gmap addr) a nd).
  - by eapply exec_sound.
Qed.

Lemma built_runs : runs built.
Proof.
  pose proof runs_start as H0.
  pose proof (runs_exec _ 0 SNewLinkedList _ H0 I eq_refl) as H1.
  pose proof (runs_exec _ 0 (SNewNode (Some (PyStr "2")) (Some None))
                _ H1 I eq_refl) as H2.
  assert (H3 : runs (new_Node (Some (PyStr "fir")) (Some (Some 0))
                       (new_Node (Some (PyStr "2")) (Some None)
                          (new_LinkedList start)).2).2).
  { apply (runs_exec _ 0 (SNewNode (Some (PyStr "fir")) (Some (Some 0)))
             _ H2); [by eexists | reflexivity]. }
  apply (runs_exec _ 0 (SSetHead (Some 1)) _ H3); [by eexists | reflexivity].
Qed.

(** X5. No list the module can build is cyclic: [next_node] is only set
    when a node is built, to a node that exists already, so in every state
    reached by statements that name existing objects the chain from
    [ll.head] ends, no reference dangles, and [print_LL] returns, after at
    most as many executions of its loop body as there are nodes. *)
Theorem runs_print_LL (st : State) :
  runs st →
  closed st ∧
  ∃ addrs es,
    chain (heap st) (head (ll st)) addrs es ∧
    length addrs ≤ size (heap st) ∧
    ∀ fuel, size (heap st) ≤ fuel →
      print_LL fuel st = Done (PyNone, emit (lines (head (ll st)) es) st).
Proof.
  intros Hruns. destruct (runs_sound st Hruns) as [Hclosed Hwf].
  split; [done |].
  assert (∃ addrs es, chain (heap st) (head (ll st)) addrs es)
    as (addrs & es & Hc).
  { destruct (head (ll st)) as [a|] eqn:Hhead.
    - apply Hwf, (proj1 Hclosed), Hhead.
    - exists [], []. constructor. }
  exists addrs, es. pose proof (chain_size _ _ _ _ Hc) as Hsize.
  split; [done |]. split; [done |].
  intros fuel Hfuel. apply (print_LL_chain _ _ _ _ Hc). lia.
Qed.

Lemma runs_print_LL_witness :
  closed built ∧
  ∃ addrs es,
    chain (heap built) (head (ll built)) addrs es ∧
    length addrs ≤ size (heap built) ∧
    ∀ fuel, size (heap built) ≤ fuel →
      print_LL fuel built
      = Done (PyNone, emit (lines (head (ll built)) es) built).
Proof. apply (runs_print_LL built). exact built_runs. Defined.

(** X6. The number of nodes bounds the loop: where no reference dangles, a
    call still running after as many executions of the loop body as the
    heap has nodes is on a cyclic chain and never returns. *)
Theorem print_LL_size_bound (st : State) :
  closed st → print_LL (size (heap st)) st = OutOfFuel →
  cyclic (heap st) (head (ll st)) ∧ ∀ fuel, print_LL fuel st = OutOfFuel.
Proof.
  intros [Hhead Hnext] Hrun.
  assert (Hcyc : cyclic (heap st) (head (ll st))).
  { apply long_walk_cyclic.
    apply (while_node_running _ (size (heap st)) "" _ Hnext Hhead).
    by apply print_LL_OutOfFuel. }
  split; [done |]. intros fuel. by apply cyclic_print_LL.
Qed.

Lemma print_LL_size_bound_witness :
  cyclic (heap looped) (head (ll looped)) ∧
  ∀ fuel, print_LL fuel looped = OutOfFuel.
Proof.
  apply (print_LL_size_bound looped); [exact looped_closed | reflexivity].
Defined.



(** X8. The line does not tell where one element ends: a node whose data
    is a string holding the separator, [s + " => " + t], prints as the two
    nodes holding [s] and [t] do. *)
Theorem print_LL_separator_in_data (st1 st2 : State)
    (addrs1 addrs2 : list addr) (s t : string) (rest : list PyVal)
    (fuel1 fuel2 : nat) :
  chain (heap st1) (head (ll st1)) addrs1
    (PyStr (s +:+ " => " +:+ t) :: rest) →
  chain (heap st2) (head (ll st2)) addrs2 (PyStr s :: PyStr t :: rest) →
  length addrs1 ≤ fuel1 → length addrs2 ≤ fuel2 →
  length addrs2 = S (length addrs1) ∧
  ∃ line,
    print_LL fuel1 st1 = Done (PyNone, emit [line] st1) ∧
    print_LL fuel2 st2 = Done (PyNone, emit [line] st2).
Proof.
  intros Hc1 Hc2 Hfuel1 Hfuel2.
  split.
  { rewrite <- (chain_length _ _ _ _ Hc1), <- (chain_length _ _ _ _ Hc2).
    done. }
  exists (render_spec (PyStr s :: PyStr t :: rest)).
  rewrite (print_LL_chain _ _ _ _ Hc1 Hfuel1),
    (print_LL_chain _ _ _ _ Hc2 Hfuel2).
  destruct (chain_cons_head _ _ _ _ _ Hc1) as [a1 ->].
  destruct (chain_cons_head _ _ _ _ _ Hc2) as [a2 ->].
  split; [|done]. simpl. do 3 f_equal.
  rewrite !render_spec_cons. simpl. by rewrite !append_assoc.
Qed.

Lemma print_LL_separator_in_data_witness :
  let st1 := set_head (Some 0)
               (new_Node (Some (PyStr "fir => 2")) None start).2 in
  length [1; 0] = S (length [0]) ∧
  ∃ line,
    print_LL 1 st1 = Done (PyNone, emit [line] st1) ∧
    print_LL 2 built = Done (PyNone, emit [line] built).
Proof.
  intros st1.
  apply (print_LL_separator_in_data st1 built [0] [1; 0] "fir" "2" [] 1 2).
  - apply (chain_node _ 0 {| data := PyStr "fir => 2"; next_node := None |});
      [reflexivity | constructor].
  - exact built_chain.
  - simpl. lia.
  - simpl. lia.
Defined.
